(** * longhorn_mobile.h: the C interface of the Longhorn mobile binding

    The repository part under study is one C header,
    [test-project-ios/Test_Project/longhorn_mobile.h].  The development
    keeps the text of the header as a string, lexes it, runs the
    preprocessor directives it uses and parses its prototypes; every
    statement about the interface is a statement about the result of that
    pipeline on the text. *)

From Stdlib Require Import String Ascii List ZArith Lia Bool.
From stdpp Require Import gmap strings list.
Import ListNotations.
Local Open Scope string_scope.

(** ** The source text *)

Module Source.

(** The header, byte for byte: eighteen lines, the last one without a
    terminating newline. *)
Definition longhorn_mobile_h : string :=
"#ifndef longhorn_mobile_h
#define longhorn_mobile_h

#include <stdbool.h>
#include <stdint.h>

bool longhorn_init(void);
bool longhorn_create_with_metal(void* metal_layer, uint32_t width, uint32_t height);
bool longhorn_load_game(const char* path);
bool longhorn_start(void);
bool longhorn_update(void);
void longhorn_handle_touch_start(float x, float y);
void longhorn_handle_touch_move(float x, float y);
void longhorn_handle_touch_end(float x, float y);
void longhorn_resize(uint32_t width, uint32_t height);
void longhorn_cleanup(void);

#endif /* longhorn_mobile_h */".

(** The macro the include guard tests and defines. *)
Definition guard : string := "longhorn_mobile_h".

End Source.

(** ** Lexing *)

Module Lex.

Definition newline : ascii := "010"%char.

(** Physical lines: the text is cut at every newline character. *)
Fixpoint lines_from (cur : string) (s : string) : list string :=
  match s with
  | EmptyString => [cur]
  | String c rest =>
      if Ascii.eqb c newline then cur :: lines_from "" rest
      else lines_from (cur ++ String c "") rest
  end.

Definition physical_lines (s : string) : list string :=
  match s with
  | EmptyString => []
  | _ => lines_from "" s
  end.

Inductive token :=
| TIdent (s : string)
| TPunct (c : ascii).

#[global] Instance token_eq_dec : EqDecision token.
Proof. solve_decision. Defined.

Definition is_ident_char (c : ascii) : bool :=
  let n := nat_of_ascii c in
  (Nat.leb 97 n && Nat.leb n 122) || (Nat.leb 65 n && Nat.leb n 90)
  || (Nat.leb 48 n && Nat.leb n 57) || Nat.eqb n 95.

Definition is_blank_char (c : ascii) : bool :=
  let n := nat_of_ascii c in Nat.eqb n 32 || Nat.eqb n 9 || Nat.eqb n 13.

Definition flush (cur : string) (k : list token) : list token :=
  match cur with
  | EmptyString => k
  | _ => TIdent cur :: k
  end.

(** One logical line is a list of tokens; [lex_code] returns the finished
    lines in order, the line being built is [line] (reversed) and the
    identifier being read is [cur].  A comment counts as white space and a
    newline inside it does not end the line. *)
Fixpoint lex_code (line : list token) (cur : string) (s : string)
  : list (list token) :=
  match s with
  | EmptyString => [rev (flush cur line)]
  | String c rest =>
      if is_ident_char c then lex_code line (cur ++ String c "") rest
      else if Ascii.eqb c newline then
        rev (flush cur line) :: lex_code [] "" rest
      else if is_blank_char c then lex_code (flush cur line) "" rest
      else if Ascii.eqb c "/"%char then
        match rest with
        | String "*"%char rest' => lex_comment (flush cur line) rest'
        | _ => lex_code (TPunct c :: flush cur line) "" rest
        end
      else lex_code (TPunct c :: flush cur line) "" rest
  end
with lex_comment (line : list token) (s : string) : list (list token) :=
  match s with
  | EmptyString => [rev line]
  | String c rest =>
      if Ascii.eqb c "*"%char then
        match rest with
        | String "/"%char rest' => lex_code line "" rest'
        | _ => lex_comment line rest
        end
      else lex_comment line rest
  end.

Definition lex (s : string) : list (list token) := lex_code [] "" s.

(** The spelling of a token list, used for header names. *)
Fixpoint spell (ts : list token) : string :=
  match ts with
  | [] => ""
  | TIdent s :: r => s ++ spell r
  | TPunct c :: r => String c (spell r)
  end.

End Lex.

(** ** Abstract syntax of the header *)

Module Ast.
Import Lex.

(** The type names the header spells. *)
Inductive base_type := Void | Bool | Char | Float | UInt32.

(** [Base c b] is [b], const-qualified when [c]; [Ptr t] is [t*]. *)
Inductive ctype :=
| Base (is_const : bool) (b : base_type)
| Ptr (pointee : ctype).

Inductive storage := Extern | Static.

Record param := { p_type : ctype; p_name : string }.

Record fundecl := {
  f_storage : option storage;
  f_ret : ctype;
  f_name : string;
  f_params : list param
}.

(** [r n(ps);] without a storage class, and the parameter [t n]. *)
Definition proto (r : ctype) (n : string) (ps : list param) : fundecl :=
  {| f_storage := None; f_ret := r; f_name := n; f_params := ps |}.

Definition par (t : ctype) (n : string) : param :=
  {| p_type := t; p_name := n |}.

Inductive directive :=
| Ifndef (m : string)
| Define (m : string) (body : list token)
| Undef (m : string)
| IncludeSys (h : string)
| Endif
| OtherDirective (ts : list token).

(** A logical line after classification. *)
Inductive item :=
| Blank
| Directive (d : directive)
| Prototype (f : fundecl)
| OtherText (ts : list token).

#[global] Instance base_type_eq_dec : EqDecision base_type.
Proof. solve_decision. Defined.
#[global] Instance ctype_eq_dec : EqDecision ctype.
Proof. solve_decision. Defined.
#[global] Instance storage_eq_dec : EqDecision storage.
Proof. solve_decision. Defined.
#[global] Instance param_eq_dec : EqDecision param.
Proof. solve_decision. Defined.
#[global] Instance fundecl_eq_dec : EqDecision fundecl.
Proof. solve_decision. Defined.

End Ast.

(** ** Parsing one logical line *)

Module Parse.
Import Lex Ast.

Definition base_of (s : string) : option base_type :=
  match s with
  | "void" => Some Void
  | "bool" => Some Bool
  | "char" => Some Char
  | "float" => Some Float
  | "uint32_t" => Some UInt32
  | _ => None
  end.

Fixpoint pointers (t : ctype) (ts : list token) : option ctype :=
  match ts with
  | [] => Some t
  | TPunct "*"%char :: r => pointers (Ptr t) r
  | _ => None
  end.

(** [const T], [T const] or [T], followed by any number of [*]. *)
Definition parse_type (ts : list token) : option ctype :=
  match ts with
  | TIdent q :: TIdent b :: r =>
      if String.eqb q "const" then b' ← base_of b; pointers (Base true b') r
      else if String.eqb b "const" then q' ← base_of q; pointers (Base true q') r
      else None
  | TIdent b :: r => b' ← base_of b; pointers (Base false b') r
  | _ => None
  end.

Fixpoint split_last {A} (l : list A) : option (list A * A) :=
  match l with
  | [] => None
  | [x] => Some ([], x)
  | x :: r => '(i, y) ← split_last r; Some (x :: i, y)
  end.

(** A type followed by the declared name. *)
Definition parse_declarator (ts : list token) : option (ctype * string) :=
  match split_last ts with
  | Some (ty, TIdent n) => t ← parse_type ty; Some (t, n)
  | _ => None
  end.

Definition parse_param (ts : list token) : option param :=
  '(t, n) ← parse_declarator ts; Some {| p_type := t; p_name := n |}.

Fixpoint split_on (sep : token) (ts : list token) : list (list token) :=
  match ts with
  | [] => [[]]
  | t :: r =>
      if decide (t = sep) then [] :: split_on sep r
      else match split_on sep r with
           | c :: cs => (t :: c) :: cs
           | [] => [[t]]
           end
  end.

Fixpoint break_at (sep : token) (ts : list token)
  : option (list token * list token) :=
  match ts with
  | [] => None
  | t :: r =>
      if decide (t = sep) then Some ([], r)
      else '(a, b) ← break_at sep r; Some (t :: a, b)
  end.

(** [(void)] declares no parameter; otherwise the parameters are
    separated by commas. *)
Definition parse_params (ts : list token) : option (list param) :=
  match ts with
  | [TIdent "void"] => Some []
  | _ => mapM parse_param (split_on (TPunct ","%char) ts)
  end.

Definition strip_storage (ts : list token) : option storage * list token :=
  match ts with
  | TIdent s :: r =>
      if String.eqb s "extern" then (Some Extern, r)
      else if String.eqb s "static" then (Some Static, r)
      else (None, ts)
  | _ => (None, ts)
  end.

(** A prototype: declarator, parenthesised parameters, semicolon, and
    nothing after it (so no body). *)
Definition parse_prototype (ts : list token) : option fundecl :=
  let '(st, ts1) := strip_storage ts in
  '(head, rest) ← break_at (TPunct "("%char) ts1;
  '(rest1, semi) ← split_last rest;
  '(args, rparen) ← split_last rest1;
  if decide (semi = TPunct ";"%char ∧ rparen = TPunct ")"%char) then
    '(t, n) ← parse_declarator head;
    ps ← parse_params args;
    Some {| f_storage := st; f_ret := t; f_name := n; f_params := ps |}
  else None.

Definition parse_directive (ts : list token) : directive :=
  match ts with
  | [TIdent "ifndef"; TIdent m] => Ifndef m
  | [TIdent "undef"; TIdent m] => Undef m
  | TIdent "define" :: TIdent m :: body => Define m body
  | TIdent "endif" :: [] => Endif
  | TIdent "include" :: TPunct "<"%char :: r =>
      match split_last r with
      | Some (h, TPunct ">"%char) => IncludeSys (spell h)
      | _ => OtherDirective ts
      end
  | _ => OtherDirective ts
  end.

Definition classify (ts : list token) : item :=
  match ts with
  | [] => Blank
  | TPunct "#"%char :: r => Directive (parse_directive r)
  | _ => match parse_prototype ts with
         | Some f => Prototype f
         | None => OtherText ts
         end
  end.

(** The header as a list of items, one per logical line. *)
Definition parse (src : string) : list item := map classify (lex src).

End Parse.

(** ** The preprocessor on the directives the header uses *)

Module Cpp.
Import Lex Ast Parse.

(** A logical line as the preprocessor sees it. *)
Inductive pp_line :=
| PDir (d : directive)
| PText (ts : list token).

Definition pp_classify (ts : list token) : pp_line :=
  match ts with
  | TPunct "#"%char :: r => PDir (parse_directive r)
  | _ => PText ts
  end.

(** The lines of longhorn_mobile.h. *)
Definition header_lines : list pp_line :=
  map pp_classify (lex Source.longhorn_mobile_h).

(** A line of a translation unit that includes the header: either the
    inclusion of longhorn_mobile.h or a line of the unit's own. *)
Inductive unit_line :=
| UInclude
| ULine (l : pp_line).

(** Preprocessor state: the macro definitions, the stack of open
    conditional groups (is the group being processed?) and the text
    produced so far. *)
Record state := {
  defs : gmap string (list token);
  conds : list bool;
  out : list (list token)
}.

Definition active (st : state) : bool :=
  match conds st with
  | [] => true
  | b :: _ => b
  end.

Definition defined (m : string) (d : gmap string (list token)) : bool :=
  bool_decide (is_Some (d !! m)).

(** The unit's own lines are plain when they open or close no
    conditional group and do not undefine the guard macro. *)
Definition plain (l : unit_line) : bool :=
  match l with
  | ULine (PDir (Ifndef _)) | ULine (PDir Endif) => false
  | ULine (PDir (Undef m)) => negb (String.eqb m Source.guard)
  | _ => true
  end.

Definition flat (u : list unit_line) : bool := forallb plain u.

(** Lines that neither open nor close a group, that the model handles
    and that do not undefine the guard macro. *)
Definition quiet (l : pp_line) : bool :=
  match l with
  | PDir (Ifndef _) | PDir Endif | PDir (OtherDirective _) => false
  | PDir (Undef m) => negb (String.eqb m Source.guard)
  | _ => true
  end.

(** [drop_includes] removes every inclusion of the header, [keep_first]
    every inclusion after the first one. *)
Definition drop_includes (u : list unit_line) : list unit_line :=
  List.filter (fun l => match l with UInclude => false | _ => true end) u.

Fixpoint keep_first (u : list unit_line) : list unit_line :=
  match u with
  | [] => []
  | UInclude :: r => UInclude :: drop_includes r
  | l :: r => l :: keep_first r
  end.

Section Semantics.

(** Macro replacement of a text line, and the effect of a system header
    on the macro definitions together with the text it contributes:
    neither is part of the repository, both are parameters. *)
Variable expand : gmap string (list token) → list token → list token.
Variable sys_header :
  string → gmap string (list token) →
  list (list token) * gmap string (list token).

Definition step (st : state) (l : pp_line) : option state :=
  match l with
  | PDir (Ifndef m) =>
      Some {| defs := defs st;
              conds := (active st && negb (defined m (defs st))) :: conds st;
              out := out st |}
  | PDir Endif =>
      match conds st with
      | [] => None
      | _ :: r => Some {| defs := defs st; conds := r; out := out st |}
      end
  | PDir (OtherDirective _) => None
  | PDir (Define m body) =>
      if active st then
        Some {| defs := <[m := body]> (defs st);
                conds := conds st; out := out st |}
      else Some st
  | PDir (Undef m) =>
      if active st then
        Some {| defs := delete m (defs st);
                conds := conds st; out := out st |}
      else Some st
  | PDir (IncludeSys h) =>
      if active st then
        let '(o, d) := sys_header h (defs st) in
        Some {| defs := d; conds := conds st; out := out st ++ o |}
      else Some st
  | PText [] => Some st
  | PText ts =>
      if active st then
        Some {| defs := defs st; conds := conds st;
                out := out st ++ [expand (defs st) ts] |}
      else Some st
  end.

Fixpoint run (ls : list pp_line) (st : state) : option state :=
  match ls with
  | [] => Some st
  | l :: r => st' ← step st l; run r st'
  end.

(** Inclusion of a file: skipped in a group that is not processed;
    otherwise the file's lines run with a conditional stack of their
    own, which has to be empty again at the end of the file. *)
Definition include_file (ls : list pp_line) (st : state) : option state :=
  if active st then
    st' ← run ls {| defs := defs st; conds := []; out := out st |};
    match conds st' with
    | [] => Some {| defs := defs st'; conds := conds st; out := out st' |}
    | _ => None
    end
  else Some st.

Definition unit_step (st : state) (l : unit_line) : option state :=
  match l with
  | UInclude => include_file header_lines st
  | ULine l => step st l
  end.

Fixpoint run_unit (u : list unit_line) (st : state) : option state :=
  match u with
  | [] => Some st
  | l :: r => st' ← unit_step st l; run_unit r st'
  end.

End Semantics.

(** Further inclusions change nothing in a state that is settled: its
    group is skipped, or the guard macro is defined. *)
Definition settled (st : state) : bool :=
  negb (active st) || defined Source.guard (defs st).

(** The state a translation unit starts in. *)
Definition start (d : gmap string (list token)) : state :=
  {| defs := d; conds := []; out := [] |}.

(** A preprocessor without macro replacement whose system headers
    contribute one marker line each and define nothing. *)
Definition no_expand (d : gmap string (list token)) (ts : list token)
  : list token := ts.

Definition marker_header (h : string) (d : gmap string (list token))
  : list (list token) * gmap string (list token) :=
  ([[TPunct "<"%char; TIdent h; TPunct ">"%char]], d).

End Cpp.

(** ** The declared interface *)

Module Interface.
Import Lex Ast Parse.

Definition prototypes (its : list item) : list fundecl :=
  omap (fun i => match i with Prototype f => Some f | _ => None end) its.

(** The functions longhorn_mobile.h declares, in the order of the file. *)
Definition declared : list fundecl :=
  prototypes (parse Source.longhorn_mobile_h).

(** What a type name of the header stands for: [bool] of <stdbool.h>,
    [uint32_t] of <stdint.h>, and the C types [void], [char], [float]. *)
Inductive kind :=
| NoValue
| Boolean
| Character
| FloatingPoint
| UnsignedInt (bits : nat).

Definition kind_of (b : base_type) : kind :=
  match b with
  | Void => NoValue
  | Bool => Boolean
  | Char => Character
  | Float => FloatingPoint
  | UInt32 => UnsignedInt 32
  end.

#[global] Instance kind_eq_dec : EqDecision kind.
Proof. solve_decision. Defined.


(** Dereferencing a pointer as it is typed: an object can be stored to
    through it when the pointee is a complete object type without a
    [const] qualifier (the left operand of an assignment has to be a
    modifiable lvalue); it can be loaded through the pointer when the
    pointee is complete.  [void] is incomplete, so nothing is loaded or
    stored through a [void*] before it is converted. *)
Definition may_store_through (t : ctype) : bool :=
  match t with
  | Ptr (Base c b) => negb c && negb (bool_decide (b = Void))
  | Ptr (Ptr _) => true
  | Base _ _ => false
  end.

Definition may_load_through (t : ctype) : bool :=
  match t with
  | Ptr (Base _ b) => negb (bool_decide (b = Void))
  | Ptr (Ptr _) => true
  | Base _ _ => false
  end.








(** Linkage of a function declared at file scope in a C translation
    unit: internal with [static], external otherwise, and then the
    function is reached under its plain C name. *)
Inductive linkage_kind := ExternalLinkage | InternalLinkage.

Definition linkage (f : fundecl) : linkage_kind :=
  match f_storage f with
  | Some Static => InternalLinkage
  | _ => ExternalLinkage
  end.

(** Tokens that only occur where something is defined rather than
    declared: braces (a body, a struct, union or enum), an initialiser,
    and the keywords that introduce a data type. *)
Definition defining_token (t : token) : bool :=
  match t with
  | TPunct c =>
      Ascii.eqb c "{"%char || Ascii.eqb c "}"%char || Ascii.eqb c "="%char
  | TIdent s =>
      String.eqb s "struct" || String.eqb s "union" || String.eqb s "enum"
      || String.eqb s "typedef"
  end.

(** A line of a declaration-only header: blank, one of the four
    directives of the include guard and the system includes, or a
    function prototype. *)
Definition signature_only (i : item) : bool :=
  match i with
  | Blank => true
  | Directive (Ifndef _) | Directive (Define _ _)
  | Directive (IncludeSys _) | Directive Endif => true
  | Directive _ => false
  | Prototype _ => true
  | OtherText _ => false
  end.

(** The declarations that carry a given name. *)
Definition declarations_of (n : string) : list fundecl :=
  List.filter (fun f => String.eqb (f_name f) n) declared.

(** How a parameter or a result is passed, in the vocabulary of the
    specification. *)
Inductive shape :=
| ByValue (k : kind)
| Pointer (to_const : bool) (k : kind)
| PointerToPointer.

Definition shape_of (t : ctype) : shape :=
  match t with
  | Base _ b => ByValue (kind_of b)
  | Ptr (Base c b) => Pointer c (kind_of b)
  | Ptr (Ptr _) => PointerToPointer
  end.

Definition param_shapes (f : fundecl) : list shape :=
  map (fun p => shape_of (p_type p)) (f_params f).

Definition is_text (i : item) : bool :=
  match i with
  | Prototype _ | OtherText _ => true
  | _ => false
  end.

(** The ten prototypes as the file spells them, in its order. *)
Definition expected_prototypes : list fundecl :=
  [ proto (Base false Bool) "longhorn_init" [];
    proto (Base false Bool) "longhorn_create_with_metal"
      [par (Ptr (Base false Void)) "metal_layer";
       par (Base false UInt32) "width"; par (Base false UInt32) "height"];
    proto (Base false Bool) "longhorn_load_game"
      [par (Ptr (Base true Char)) "path"];
    proto (Base false Bool) "longhorn_start" [];
    proto (Base false Bool) "longhorn_update" [];
    proto (Base false Void) "longhorn_handle_touch_start"
      [par (Base false Float) "x"; par (Base false Float) "y"];
    proto (Base false Void) "longhorn_handle_touch_move"
      [par (Base false Float) "x"; par (Base false Float) "y"];
    proto (Base false Void) "longhorn_handle_touch_end"
      [par (Base false Float) "x"; par (Base false Float) "y"];
    proto (Base false Void) "longhorn_resize"
      [par (Base false UInt32) "width"; par (Base false UInt32) "height"];
    proto (Base false Void) "longhorn_cleanup" [] ].


(** The names of the interface, grouped as the specification does. *)
Definition lifecycle_names : list string :=
  ["longhorn_init"; "longhorn_create_with_metal"; "longhorn_load_game";
   "longhorn_start"; "longhorn_update"; "longhorn_cleanup"].

Definition touch_names : list string :=
  ["longhorn_handle_touch_start"; "longhorn_handle_touch_move";
   "longhorn_handle_touch_end"].

Definition resize_names : list string := ["longhorn_resize"].



End Interface.

(** ** The lifecycle protocol *)

Module Lifecycle.

(** The ten entry points as an enumeration. *)
Inductive entry :=
| Init | CreateWithMetal | LoadGame | Start | Update
| TouchStart | TouchMove | TouchEnd | Resize | Cleanup.

#[global] Instance entry_eq_dec : EqDecision entry.
Proof. solve_decision. Defined.

Definition entries : list entry :=
  [Init; CreateWithMetal; LoadGame; Start; Update;
   TouchStart; TouchMove; TouchEnd; Resize; Cleanup].

Definition entry_name (e : entry) : string :=
  match e with
  | Init => "longhorn_init"
  | CreateWithMetal => "longhorn_create_with_metal"
  | LoadGame => "longhorn_load_game"
  | Start => "longhorn_start"
  | Update => "longhorn_update"
  | TouchStart => "longhorn_handle_touch_start"
  | TouchMove => "longhorn_handle_touch_move"
  | TouchEnd => "longhorn_handle_touch_end"
  | Resize => "longhorn_resize"
  | Cleanup => "longhorn_cleanup"
  end.

(** Modelled from the spec: neither the host program that calls the
    interface nor the engine behind it is part of the header, so the
    protocol a host follows is taken from the specification's overview,
    "init, create-with-surface, load-game, start, repeated
    update/touch/resize calls, cleanup": a phase per arrow, and [next]
    is defined exactly on the calls the overview allows in a phase. *)
Inductive phase :=
| Fresh | Initialised | SurfaceReady | GameLoaded | Running | Finished.

#[global] Instance phase_eq_dec : EqDecision phase.
Proof. solve_decision. Defined.

(** The calls that repeat while the game runs. *)
Definition in_loop (e : entry) : bool :=
  match e with
  | Update | TouchStart | TouchMove | TouchEnd | Resize => true
  | _ => false
  end.

Definition next (p : phase) (e : entry) : option phase :=
  match p, e with
  | Fresh, Init => Some Initialised
  | Initialised, CreateWithMetal => Some SurfaceReady
  | SurfaceReady, LoadGame => Some GameLoaded
  | GameLoaded, Start => Some Running
  | Running, Cleanup => Some Finished
  | Running, _ => if in_loop e then Some Running else None
  | _, _ => None
  end.

(** A host program is taken by the calls it makes, in order; it follows
    the protocol when [drive] accepts them. *)
Fixpoint drive (p : phase) (calls : list entry) : option phase :=
  match calls with
  | [] => Some p
  | e :: r => q ← next p e; drive q r
  end.

(** The setup calls still to come in a phase. *)
Definition script (p : phase) : list entry :=
  match p with
  | Fresh => [Init; CreateWithMetal; LoadGame; Start]
  | Initialised => [CreateWithMetal; LoadGame; Start]
  | SurfaceReady => [LoadGame; Start]
  | GameLoaded => [Start]
  | Running | Finished => []
  end.

(** The fixed order, written out: the four setup calls, any number of
    loop calls, one cleanup. *)
Definition full_order (body : list entry) : list entry :=
  script Fresh ++ body ++ [Cleanup].

End Lifecycle.

(** ** What a callee may do with its arguments *)

Module Access.
Import Ast Interface.

(** Modelled from the spec: the bodies of the declared functions are
    missing; the specification finds "no implementation" in the source,
    "only function signatures exposed across an ABI boundary", and gives
    the bodies no behaviour.  Nothing is therefore assumed of a body: it
    is any list of memory actions, each through a pointer expression
    built from the parameters of the call.  Which actions a C compiler
    accepts against a declaration follows the rules of the language: a
    pointer to [void] converts to a pointer to an object type without a
    cast, keeping the qualifiers of the pointee; an explicit cast turns
    a pointer into a pointer of any type, qualified or not; an object is
    loaded or stored through a pointer as it is typed.  Pointers the
    engine holds from elsewhere are not part of a call and stay outside
    the model. *)
Inductive ptr_expr :=
| Param (i : nat)
| Convert (b : base_type) (e : ptr_expr)
| Cast (t : ctype) (e : ptr_expr).

Inductive action :=
| Load (e : ptr_expr) (off : Z)
| Store (e : ptr_expr) (off : Z) (v : Z)
| Private (cell : Z) (v : Z).

Fixpoint type_of (sig : list param) (e : ptr_expr) : option ctype :=
  match e with
  | Param i => p_type <$> sig !! i
  | Convert b e =>
      match type_of sig e with
      | Some (Ptr (Base c Void)) => Some (Ptr (Base c b))
      | _ => None
      end
  | Cast t e =>
      match type_of sig e, t with
      | Some (Ptr _), Ptr _ => Some t
      | _, _ => None
      end
  end.

Definition permitted (sig : list param) (a : action) : bool :=
  match a with
  | Load e _ =>
      match type_of sig e with
      | Some t => may_load_through t
      | None => false
      end
  | Store e _ _ =>
      match type_of sig e with
      | Some t => may_store_through t
      | None => false
      end
  | Private _ _ => true
  end.

Definition well_typed (sig : list param) (body : list action) : bool :=
  forallb (permitted sig) body.

(** An expression, an action, a body without an explicit cast. *)
Fixpoint cast_free (e : ptr_expr) : bool :=
  match e with
  | Param _ => true
  | Convert _ e => cast_free e
  | Cast _ _ => false
  end.

Definition action_cast_free (a : action) : bool :=
  match a with
  | Load e _ | Store e _ _ => cast_free e
  | Private _ _ => true
  end.

Definition body_cast_free (body : list action) : bool :=
  forallb action_cast_free body.

(** The caller's memory and the engine's, both by address. *)
Record world := {
  caller_mem : gmap Z Z;
  engine_mem : gmap Z Z
}.

(** [args] holds the argument values; a pointer argument is an address
    in the caller's memory, and conversions and casts keep the
    address. *)
Fixpoint address (args : list Z) (e : ptr_expr) : option Z :=
  match e with
  | Param i => args !! i
  | Convert _ e | Cast _ e => address args e
  end.

Definition perform (args : list Z) (w : world) (a : action) : world :=
  match a with
  | Load _ _ => w
  | Store e off v =>
      match address args e with
      | Some p => {| caller_mem := <[(p + off)%Z := v]> (caller_mem w);
                     engine_mem := engine_mem w |}
      | None => w
      end
  | Private c v =>
      {| caller_mem := caller_mem w;
         engine_mem := <[c := v]> (engine_mem w) |}
  end.

Definition call (body : list action) (args : list Z) (w : world) : world :=
  foldl (perform args) w body.

(** The [n] characters at address [p]. *)
Definition string_at (m : gmap Z Z) (p : Z) (n : nat) : list (option Z) :=
  map (fun i => m !! (p + Z.of_nat i)%Z) (seq 0 n).

End Access.

(** ** What an inclusion contributes *)

Module Contribution.
Import Lex Ast Parse Cpp.

(** The lines of the header that carry text, in the order of the file. *)
Definition prototype_lines : list (list token) :=
  omap (fun l => match l with
                 | PText (t :: ts) => Some (t :: ts)
                 | _ => None
                 end)
       header_lines.

Definition nonempty (ts : list token) : bool :=
  match ts with
  | [] => false
  | _ => true
  end.

End Contribution.

(** * Properties *)

Import Lex Ast Parse Interface.
Local Open Scope list_scope.

(** ** The parsed header *)

Lemma parse_header :
  parse Source.longhorn_mobile_h
  = [Directive (Ifndef Source.guard); Directive (Define Source.guard []);
     Blank;
     Directive (IncludeSys "stdbool.h"); Directive (IncludeSys "stdint.h");
     Blank]
    ++ map Prototype expected_prototypes
    ++ [Blank; Directive Endif].
Proof. vm_compute. reflexivity. Qed.

Lemma prototypes_map (fs : list fundecl) :
  prototypes (map Prototype fs) = fs.
Proof.
  induction fs as [|f fs IH]; [done|].
  change (f :: prototypes (map Prototype fs) = f :: fs). by f_equal.
Qed.

Lemma prototypes_app (a b : list item) :
  prototypes (a ++ b) = prototypes a ++ prototypes b.
Proof. unfold prototypes. apply omap_app. Qed.

Lemma declared_eq : declared = expected_prototypes.
Proof.
  unfold declared. rewrite parse_header, !prototypes_app, prototypes_map.
  reflexivity.
Qed.

Lemma entry_names_declared :
  map Lifecycle.entry_name Lifecycle.entries = map f_name declared.
Proof. rewrite declared_eq. reflexivity. Qed.

(** Every entry of the enumeration is listed. *)
Lemma entries_complete (e : Lifecycle.entry) : e ∈ Lifecycle.entries.
Proof. destruct e; unfold Lifecycle.entries; set_solver. Qed.

(** ** The entry points and their signatures *)

Lemma not_elem_of_names (n : string) (l : list string) :
  forallb (fun m => negb (String.eqb n m)) l = true → n ∉ l.
Proof.
  induction l as [|m l IH]; simpl; [intros _; apply not_elem_of_nil|].
  rewrite andb_true_iff, negb_true_iff, String.eqb_neq.
  intros [Hm Hl]. apply not_elem_of_cons. auto.
Qed.

(** C1: the public interface consists of exactly ten entry points: the
    six lifecycle functions, the three touch handlers and the resize
    hook.  The declared names are those ten, each once, and every text
    line of the header is the prototype of one of them, so that nothing
    else is declared. *)
Theorem interface_entry_points :
  map f_name declared ≡ₚ lifecycle_names ++ touch_names ++ resize_names
  ∧ NoDup (map f_name declared)
  ∧ length declared = 10
  ∧ (length lifecycle_names, length touch_names, length resize_names)
    = (6, 3, 1)
  ∧ List.filter is_text (parse Source.longhorn_mobile_h)
    = map Prototype declared.
Proof.
  split_and!.
  - rewrite declared_eq. cbn.
    do 5 apply perm_skip.
    symmetry. apply (Permutation_cons_append [_; _; _; _]).
  - rewrite declared_eq. cbn.
    repeat (apply NoDup_cons_2; [by apply not_elem_of_names|]).
    apply NoDup_nil_2.
  - by rewrite declared_eq.
  - reflexivity.
  - rewrite declared_eq, parse_header. reflexivity.
Qed.



(** C3: longhorn_create_with_metal is declared once, with three
    parameters: an untyped pointer (the surface handle, through which
    nothing can be loaded or stored), a width and a height of 32-bit
    unsigned integer type; it returns a boolean. *)
Theorem create_with_metal_signature :
  ∃ f, declarations_of "longhorn_create_with_metal" = [f]
    ∧ map p_type (f_params f)
      = [Ptr (Base false Void); Base false UInt32; Base false UInt32]
    ∧ map p_name (f_params f) = ["metal_layer"; "width"; "height"]
    ∧ param_shapes f
      = [Pointer false NoValue;
         ByValue (UnsignedInt 32); ByValue (UnsignedInt 32)]
    ∧ Forall (fun p => may_load_through (p_type p) = false
                       ∧ may_store_through (p_type p) = false)
             (f_params f)
    ∧ shape_of (f_ret f) = ByValue Boolean.
Proof.
  unfold declarations_of. rewrite declared_eq.
  eexists. split; [reflexivity|].
  cbn. split_and!; try reflexivity.
  repeat constructor.
Qed.

(** C5: longhorn_load_game is declared once, with one parameter, path,
    a pointer to const-qualified characters; it returns a boolean. *)
Theorem load_game_signature :
  ∃ f, declarations_of "longhorn_load_game" = [f]
    ∧ f_params f = [par (Ptr (Base true Char)) "path"]
    ∧ param_shapes f = [Pointer true Character]
    ∧ f_ret f = Base false Bool
    ∧ shape_of (f_ret f) = ByValue Boolean.
Proof.
  exists (proto (Base false Bool) "longhorn_load_game"
            [par (Ptr (Base true Char)) "path"]).
  split; [|done].
  unfold declarations_of. by rewrite declared_eq.
Qed.

(** C6: each of longhorn_handle_touch_start, longhorn_handle_touch_move
    and longhorn_handle_touch_end is declared once, takes two
    floating-point coordinates x and y, and returns nothing. *)
Theorem touch_handler_signatures :
  Forall (fun n =>
            ∃ f, declarations_of n = [f]
              ∧ f_params f
                = [par (Base false Float) "x"; par (Base false Float) "y"]
              ∧ param_shapes f
                = [ByValue FloatingPoint; ByValue FloatingPoint]
              ∧ f_ret f = Base false Void)
         touch_names.
Proof.
  unfold declarations_of. rewrite declared_eq.
  unfold touch_names. rewrite !Forall_cons. split_and!; [..|done].
  all: eexists; split; [reflexivity|]; by split_and!.
Qed.

(** C7: longhorn_resize takes a width and a height, both 32-bit
    unsigned integers, and returns nothing; longhorn_cleanup takes no
    parameter and returns nothing. *)
Theorem resize_and_cleanup_signatures :
  (∃ f, declarations_of "longhorn_resize" = [f]
      ∧ map p_name (f_params f) = ["width"; "height"]
      ∧ param_shapes f = [ByValue (UnsignedInt 32); ByValue (UnsignedInt 32)]
      ∧ f_ret f = Base false Void)
  ∧ (∃ g, declarations_of "longhorn_cleanup" = [g]
      ∧ f_params g = []
      ∧ f_ret g = Base false Void).
Proof.
  unfold declarations_of. rewrite declared_eq. split.
  - exists (proto (Base false Void) "longhorn_resize"
              [par (Base false UInt32) "width";
               par (Base false UInt32) "height"]).
    by split_and!.
  - exists (proto (Base false Void) "longhorn_cleanup" []).
    by split_and!.
Qed.

(** C8: the header has eighteen lines; every line is blank, a directive
    of the include guard or a system include, or a function prototype;
    no token of a body, an initialiser or a data type occurs; each of the
    ten declared functions has external linkage in a C translation
    unit. *)
Theorem header_is_declaration_only :
  length (physical_lines Source.longhorn_mobile_h) = 18
  ∧ length (lex Source.longhorn_mobile_h) = 18
  ∧ forallb signature_only (parse Source.longhorn_mobile_h) = true
  ∧ existsb defining_token (concat (lex Source.longhorn_mobile_h)) = false
  ∧ length declared = 10
  ∧ Forall (fun f => linkage f = ExternalLinkage) declared.
Proof.
  split_and!.
  - vm_compute. reflexivity.
  - vm_compute. reflexivity.
  - rewrite parse_header. reflexivity.
  - vm_compute. reflexivity.
  - rewrite declared_eq. reflexivity.
  - rewrite declared_eq. unfold expected_prototypes.
    rewrite !Forall_cons. split_and!; done.
Qed.

(** ** The include guard *)

Section Guard.
Import Cpp.

Variable expand : gmap string (list token) → list token → list token.
Variable sys_header :
  string → gmap string (list token) →
  list (list token) * gmap string (list token).

(** The system headers leave the guard macro of this header alone. *)
Hypothesis sys_keeps_guard : ∀ h d,
  defined Source.guard d = true →
  defined Source.guard (sys_header h d).2 = true.

Local Abbreviation step := (Cpp.step expand sys_header).
Local Abbreviation run := (Cpp.run expand sys_header).
Local Abbreviation include_file := (Cpp.include_file expand sys_header).
Local Abbreviation run_unit := (Cpp.run_unit expand sys_header).

Lemma header_shape :
  ∃ body,
    header_lines
    = PDir (Ifndef Source.guard) :: PDir (Define Source.guard [])
      :: body ++ [PDir Endif]
    ∧ forallb quiet body = true.
Proof.
  exists (removelast (drop 2 header_lines)).
  split; vm_compute; reflexivity.
Qed.

Lemma defined_insert (g m : string) (b : list token)
    (d : gmap string (list token)) :
  defined g d = true → defined g (<[m := b]> d) = true.
Proof.
  unfold defined. rewrite !bool_decide_eq_true, lookup_insert_is_Some.
  destruct (decide (m = g)); auto.
Qed.

Lemma defined_insert_same (g : string) (b : list token)
    (d : gmap string (list token)) :
  defined g (<[g := b]> d) = true.
Proof.
  unfold defined. rewrite bool_decide_eq_true, lookup_insert_is_Some. auto.
Qed.

Lemma defined_delete (g m : string) (d : gmap string (list token)) :
  negb (String.eqb m g) = true →
  defined g d = true → defined g (delete m d) = true.
Proof.
  rewrite negb_true_iff, String.eqb_neq. intros Hne.
  unfold defined. rewrite !bool_decide_eq_true.
  by rewrite lookup_delete_ne.
Qed.

Lemma run_app (a b : list pp_line) (st : state) :
  run (a ++ b) st = run a st ≫= run b.
Proof.
  revert st. induction a as [|l a IH]; intros st; simpl; [done|].
  destruct (step st l) as [st'|]; simpl; [apply IH | done].
Qed.

Lemma step_quiet_skipped (l : pp_line) (st : state) :
  quiet l = true → active st = false → step st l = Some st.
Proof.
  intros Hq Ha. destruct l as [[m|m body|m|h| |ts]|[|t ts]];
    try discriminate Hq; simpl; rewrite ?Ha; reflexivity.
Qed.

Lemma run_quiet_skipped (ls : list pp_line) (st : state) :
  forallb quiet ls = true → active st = false → run ls st = Some st.
Proof.
  induction ls as [|l ls IH]; simpl; [done|].
  rewrite andb_true_iff. intros [Hl Hls] Ha.
  rewrite step_quiet_skipped by done. simpl. auto.
Qed.

Lemma step_quiet (l : pp_line) (st : state) :
  quiet l = true → defined Source.guard (defs st) = true →
  ∃ st', step st l = Some st' ∧ conds st' = conds st
         ∧ defined Source.guard (defs st') = true.
Proof.
  intros Hq Hd.
  destruct l as [[m|m body|m|h| |ts]|[|t ts]]; try discriminate Hq; simpl.
  - destruct (active st); eexists; split_and!; try reflexivity; simpl;
      auto using defined_insert.
  - destruct (active st); eexists; split_and!; try reflexivity; simpl;
      auto using defined_delete.
  - destruct (active st); [|by eexists].
    pose proof (sys_keeps_guard h _ Hd) as Hk.
    destruct (sys_header h (defs st)) as [o d]. by eexists.
  - by eexists.
  - destruct (active st); by eexists.
Qed.

Lemma run_quiet (ls : list pp_line) (st : state) :
  forallb quiet ls = true → defined Source.guard (defs st) = true →
  ∃ st', run ls st = Some st' ∧ conds st' = conds st
         ∧ defined Source.guard (defs st') = true.
Proof.
  revert st. induction ls as [|l ls IH]; intros st; simpl.
  - intros _ Hd. by exists st.
  - rewrite andb_true_iff. intros [Hl Hls] Hd.
    destruct (step_quiet l st Hl Hd) as (st1 & -> & Hc1 & Hd1). simpl.
    destruct (IH st1 Hls Hd1) as (st2 & -> & Hc2 & Hd2).
    exists st2. split_and!; [done | congruence | done].
Qed.

(** An inclusion in a settled state contributes nothing. *)
Lemma include_settled (st : state) :
  settled st = true → include_file header_lines st = Some st.
Proof.
  unfold settled, Cpp.include_file.
  destruct header_shape as (body & -> & Hq).
  destruct (active st) eqn:Ha; [|done].
  simpl. intros Hd. unfold active at 1. simpl. rewrite Hd. simpl.
  rewrite run_app, run_quiet_skipped by done.
  simpl. by destruct st.
Qed.

(** An inclusion always succeeds, keeps the conditional stack, and
    leaves a settled state. *)
Lemma include_settles (st : state) :
  ∃ st', include_file header_lines st = Some st'
         ∧ conds st' = conds st ∧ settled st' = true.
Proof.
  destruct (settled st) eqn:Hs.
  { exists st. by rewrite include_settled. }
  unfold settled in Hs. apply orb_false_iff in Hs as [Ha Hd].
  apply negb_false_iff in Ha.
  unfold Cpp.include_file. rewrite Ha.
  destruct header_shape as (body & -> & Hq).
  simpl. unfold active at 1. simpl. rewrite Hd. simpl.
  rewrite run_app.
  edestruct (run_quiet body) as (st1 & -> & Hc1 & Hd1);
    [done | apply defined_insert_same |].
  simpl in *. rewrite Hc1. simpl.
  eexists. split_and!; [reflexivity | done |].
  unfold settled. simpl. rewrite Hd1. apply orb_true_r.
Qed.

Lemma step_plain_inv (l : pp_line) (st st' : state) :
  plain (ULine l) = true → step st l = Some st' →
  conds st' = conds st
  ∧ (defined Source.guard (defs st) = true →
     defined Source.guard (defs st') = true).
Proof.
  intros Hp.
  destruct l as [[m|m body|m|h| |ts]|[|t ts]]; try discriminate Hp; simpl.
  - destruct (active st); intros [= <-]; simpl; auto using defined_insert.
  - destruct (active st); intros [= <-]; simpl; auto using defined_delete.
  - destruct (active st); [|by intros [= <-]].
    destruct (sys_header h (defs st)) as [o d] eqn:E.
    intros [= <-]. simpl. split; [done|].
    intros Hd. apply (sys_keeps_guard h) in Hd. by rewrite E in Hd.
  - discriminate.
  - by intros [= <-].
  - destruct (active st); by intros [= <-].
Qed.

Lemma step_plain_settled (l : pp_line) (st st' : state) :
  plain (ULine l) = true → settled st = true →
  step st l = Some st' → settled st' = true.
Proof.
  intros Hp Hs Hst.
  destruct (step_plain_inv l st st' Hp Hst) as [Hc Hd].
  unfold settled, active in *. rewrite Hc.
  apply orb_true_iff in Hs as [Hs|Hs]; apply orb_true_iff; auto.
Qed.

Lemma run_unit_drop_includes (u : list unit_line) (st : state) :
  flat u = true → settled st = true →
  run_unit u st = run_unit (drop_includes u) st.
Proof.
  revert st. induction u as [|l u IH]; intros st; simpl; [done|].
  rewrite andb_true_iff. intros [Hl Hu] Hs.
  destruct l as [|l]; simpl.
  - rewrite include_settled by done. simpl. by apply IH.
  - destruct (step st l) as [st'|] eqn:Hst; simpl; [|done].
    apply IH; [done|]. by eapply step_plain_settled.
Qed.

(** In a unit of plain lines every inclusion after the first can be
    removed. *)
Lemma run_unit_keep_first (u : list unit_line) (st : state) :
  flat u = true →
  run_unit u st = run_unit (keep_first u) st.
Proof.
  revert st. induction u as [|l u IH]; intros st; [done|].
  simpl. rewrite andb_true_iff. intros [Hl Hu].
  destruct l as [|l]; simpl.
  - destruct (include_settles st) as (st' & -> & _ & Hs). simpl.
    by apply run_unit_drop_includes.
  - destruct (step st l) as [st'|]; simpl; [by apply IH | done].
Qed.

(** Any number of consecutive inclusions is one inclusion. *)
Lemma include_repeated (n : nat) (st : state) :
  run_unit (replicate (S n) UInclude) st = run_unit [UInclude] st.
Proof.
  simpl. destruct (include_settles st) as (st' & -> & _ & Hs).
  simpl. clear st. revert st' Hs. induction n as [|n IH]; intros st Hs.
  - reflexivity.
  - simpl. rewrite include_settled by done. simpl. by apply IH.
Qed.

End Guard.

(** C9: including longhorn_mobile.h any number of times is the same as
    including it once.  As long as the system headers leave the guard
    macro alone: an inclusion always succeeds; [n + 1] inclusions in a
    row give, in every preprocessor state, the state one inclusion
    gives (the same macros, the same text); and in a translation unit
    whose own lines open and close no conditional group and do not
    undefine the guard, every inclusion after the first can be removed
    without changing the result. *)
Theorem include_guard_idempotent
    (expand : gmap string (list token) → list token → list token)
    (sys_header : string → gmap string (list token) →
                  list (list token) * gmap string (list token)) :
  (∀ h d, Cpp.defined Source.guard d = true →
          Cpp.defined Source.guard (sys_header h d).2 = true) →
  (∀ st, is_Some (Cpp.run_unit expand sys_header [Cpp.UInclude] st))
  ∧ (∀ n st,
       Cpp.run_unit expand sys_header (replicate (S n) Cpp.UInclude) st
       = Cpp.run_unit expand sys_header [Cpp.UInclude] st)
  ∧ (∀ u st, Cpp.flat u = true →
       Cpp.run_unit expand sys_header u st
       = Cpp.run_unit expand sys_header (Cpp.keep_first u) st).
Proof.
  intros Hk. split_and!.
  - intros st. simpl.
    destruct (include_settles expand sys_header Hk st) as (st' & -> & _).
    by eexists.
  - intros n st. by apply include_repeated.
  - intros u st. by apply run_unit_keep_first.
Qed.

Lemma include_guard_idempotent_witness :
  let u := [Cpp.UInclude;
            Cpp.ULine (Cpp.PDir (Define "LONGHORN_HOST" []));
            Cpp.UInclude;
            Cpp.ULine (Cpp.PText [TIdent "int"; TIdent "frames"; TPunct ";"%char]);
            Cpp.UInclude] in
  let pp := Cpp.run_unit Cpp.no_expand Cpp.marker_header in
  (∀ h d, Cpp.defined Source.guard d = true →
          Cpp.defined Source.guard (Cpp.marker_header h d).2 = true)
  ∧ Cpp.flat u = true
  ∧ is_Some (pp [Cpp.UInclude] (Cpp.start ∅))
  ∧ pp (replicate 3 Cpp.UInclude) (Cpp.start ∅)
    = pp [Cpp.UInclude] (Cpp.start ∅)
  ∧ pp u (Cpp.start ∅) = pp (Cpp.keep_first u) (Cpp.start ∅).
Proof.
  intros u pp.
  assert (∀ h d, Cpp.defined Source.guard d = true →
                 Cpp.defined Source.guard (Cpp.marker_header h d).2 = true)
    as Hk by (intros h d Hd; exact Hd).
  destruct (include_guard_idempotent Cpp.no_expand Cpp.marker_header Hk)
    as (Hsome & Hrep & Hunit).
  split; [exact Hk|]. split; [reflexivity|].
  split; [apply Hsome|]. split; [apply (Hrep 2) | apply Hunit; reflexivity].
Defined.

(** Undefining the guard between two inclusions opens the header
    again: the condition on the unit's own lines is needed. *)
Example undef_reopens_header :
  let u := [Cpp.UInclude;
            Cpp.ULine (Cpp.PDir (Undef Source.guard));
            Cpp.UInclude] in
  let lines_of u :=
    (fun st => length (Cpp.out st))
      <$> Cpp.run_unit Cpp.no_expand Cpp.marker_header u (Cpp.start ∅) in
  Cpp.flat u = false
  ∧ lines_of u = Some 24
  ∧ lines_of (Cpp.keep_first u) = Some 12.
Proof. vm_compute. done. Qed.

(** In a fresh translation unit the text of two inclusions is the two
    system headers followed by the ten prototypes. *)
Example include_twice_prototypes :
  (fun st => omap parse_prototype (Cpp.out st))
    <$> Cpp.run_unit Cpp.no_expand Cpp.marker_header
          [Cpp.UInclude; Cpp.UInclude] (Cpp.start ∅)
  = Some expected_prototypes.
Proof. vm_compute. reflexivity. Qed.

(** ** The lifecycle order *)

Section Protocol.
Import Lifecycle.

Lemma drive_finished (calls : list entry) (q : phase) :
  drive Finished calls = Some q → calls = [] ∧ q = Finished.
Proof. destruct calls as [|e r]; simpl; [by intros [= <-] | done]. Qed.

Lemma next_cases (p q : phase) (e : entry) :
  next p e = Some q →
  (script p = e :: script q ∧ q ≠ Finished)
  ∨ (p = Running ∧ q = Running ∧ in_loop e = true)
  ∨ (p = Running ∧ q = Finished ∧ e = Cleanup).
Proof.
  destruct p, e; simpl; intros [= <-]; auto.
Qed.

Lemma drive_ordered (calls : list entry) (p q : phase) :
  p ≠ Finished → drive p calls = Some q →
  ∃ body, Forall (fun e => in_loop e = true) body
        ∧ calls `prefix_of` script p ++ body ++ [Cleanup]
        ∧ (q = Finished → calls = script p ++ body ++ [Cleanup]).
Proof.
  revert p. induction calls as [|e r IH]; intros p Hp; simpl.
  - intros [= <-]. exists []. split_and!; [done | apply prefix_nil | done].
  - destruct (next p e) as [p'|] eqn:Hn; simpl; [|done]. intros Hr.
    destruct (next_cases _ _ _ Hn) as [[Hs Hq]|[(-> & -> & Hl)|(-> & -> & ->)]].
    + destruct (IH p' Hq Hr) as (body & Hb & Hpre & Hfin).
      exists body. rewrite Hs. split_and!; [done | | ].
      * simpl. by apply prefix_cons.
      * intros Hf. simpl. f_equal. auto.
    + destruct (IH Running Hp Hr) as (body & Hb & Hpre & Hfin).
      exists (e :: body). split_and!.
      * by constructor.
      * simpl in *. by apply prefix_cons.
      * intros Hf. simpl in *. f_equal. auto.
    + apply drive_finished in Hr as [-> ->].
      exists []. split_and!; [done | done | done].
Qed.

(** Conversely the protocol accepts every sequence in the fixed order. *)
Lemma full_order_accepted (body : list entry) :
  Forall (fun e => in_loop e = true) body →
  drive Fresh (full_order body) = Some Finished.
Proof.
  intros Hb. unfold full_order. simpl.
  induction Hb as [|e body He _ IH]; simpl; [done|].
  destruct e; try discriminate He; exact IH.
Qed.

(** C4: a host program that follows the lifecycle protocol calls the
    entry points in the fixed order.  Whatever the protocol accepts is
    the beginning of longhorn_init, longhorn_create_with_metal,
    longhorn_load_game, longhorn_start, some update, touch and resize
    calls, longhorn_cleanup; once the protocol has finished it is the
    whole of such a sequence. *)
Theorem lifecycle_order_followed (calls : list entry) (q : phase) :
  drive Fresh calls = Some q →
  ∃ body, Forall (fun e => in_loop e = true) body
        ∧ calls `prefix_of` full_order body
        ∧ (q = Finished → calls = full_order body).
Proof.
  intros Hd. by apply (drive_ordered calls Fresh q).
Qed.

Lemma lifecycle_order_followed_witness :
  let calls := [Init; CreateWithMetal; LoadGame; Start; Update; TouchStart;
                TouchMove; TouchEnd; Resize; Update; Cleanup] in
  drive Fresh calls = Some Finished
  ∧ ∃ body, Forall (fun e => in_loop e = true) body
          ∧ calls `prefix_of` full_order body
          ∧ (Finished = Finished → calls = full_order body).
Proof.
  intros calls. split; [reflexivity|].
  apply lifecycle_order_followed. reflexivity.
Defined.

End Protocol.

(** ** Const-qualified parameters *)

Section Frame.
Import Access.





(** Without the qualifier the same store is accepted as it stands and
    changes the string. *)
Example store_through_unqualified_pointer :
  let sig := [par (Ptr (Base false Char)) "path"] in
  let body := [Store (Param 0) 0 0] in
  let w := {| caller_mem := {[100%Z := 47%Z]}; engine_mem := ∅ |} in
  well_typed sig body = true
  ∧ body_cast_free body = true
  ∧ string_at (caller_mem (call body [100%Z] w)) 100 1 = [Some 0%Z]
  ∧ string_at (caller_mem w) 100 1 = [Some 47%Z].
Proof. vm_compute. done. Qed.

(** The surface handle of longhorn_create_with_metal is not qualified:
    after the conversion of [void*] a store through it is accepted
    without a cast. *)
Example store_through_surface_handle :
  let body := [Store (Convert Char (Param 0)) 0 0] in
  let w := {| caller_mem := {[100%Z := 47%Z]}; engine_mem := ∅ |} in
  Forall (fun f =>
            well_typed (f_params f) body = true
            ∧ body_cast_free body = true
            ∧ caller_mem (call body [100%Z; 640%Z; 480%Z] w) ≠ caller_mem w)
         (declarations_of "longhorn_create_with_metal").
Proof.
  unfold declarations_of. rewrite declared_eq. cbn.
  apply Forall_cons. split; [|apply Forall_nil_2].
  split_and!; [reflexivity | reflexivity |].
  intros Heq. apply (f_equal (fun m => m !! 100%Z)) in Heq.
  vm_compute in Heq. discriminate Heq.
Qed.




End Frame.

(** ** The first inclusion *)

Section Contribution.
Import Cpp Contribution.

Variable expand : gmap string (list token) → list token → list token.
Variable sys_header :
  string → gmap string (list token) →
  list (list token) * gmap string (list token).

Local Abbreviation step := (Cpp.step expand sys_header).
Local Abbreviation run := (Cpp.run expand sys_header).
Local Abbreviation include_file := (Cpp.include_file expand sys_header).

Lemma header_lines_eq :
  header_lines
  = PDir (Ifndef Source.guard) :: PDir (Define Source.guard [])
    :: PText []
    :: PDir (IncludeSys "stdbool.h") :: PDir (IncludeSys "stdint.h")
    :: PText []
    :: map PText prototype_lines ++ [PText []; PDir Endif].
Proof. vm_compute. reflexivity. Qed.

Lemma prototype_lines_nonempty : forallb nonempty prototype_lines = true.
Proof. vm_compute. reflexivity. Qed.

Lemma prototype_lines_declared :
  mapM parse_prototype prototype_lines = Some declared.
Proof. vm_compute. reflexivity. Qed.

(** Text lines in a processed group are replaced and appended, under
    the macro definitions of the moment. *)
Lemma run_text (ls : list (list token)) (st : state) :
  forallb nonempty ls = true → active st = true →
  run (map PText ls) st
  = Some {| defs := defs st; conds := conds st;
            out := out st ++ map (expand (defs st)) ls |}.
Proof.
  revert st. induction ls as [|l ls IH]; intros st; simpl.
  - intros _ _. rewrite app_nil_r. by destruct st.
  - rewrite andb_true_iff. intros [Hl Hls] Ha.
    destruct l as [|t ts]; [discriminate Hl|]. rewrite Ha. simpl.
    rewrite IH by done. simpl. by rewrite <- app_assoc.
Qed.

Lemma include_first (st : state) :
  active st = true → defined Source.guard (defs st) = false →
  include_file header_lines st
  = Some {| defs := (sys_header "stdint.h"
                       (sys_header "stdbool.h"
                          (<[Source.guard := []]> (defs st))).2).2;
            conds := conds st;
            out := out st
                   ++ (sys_header "stdbool.h"
                         (<[Source.guard := []]> (defs st))).1
                   ++ (sys_header "stdint.h"
                         (sys_header "stdbool.h"
                            (<[Source.guard := []]> (defs st))).2).1
                   ++ map (expand
                             (sys_header "stdint.h"
                                (sys_header "stdbool.h"
                                   (<[Source.guard := []]> (defs st))).2).2)
                          prototype_lines |}.
Proof.
  intros Ha Hd. unfold Cpp.include_file. rewrite Ha, header_lines_eq.
  pose proof prototype_lines_nonempty as Hne. revert Hne.
  generalize prototype_lines. intros ls Hne.
  simpl. unfold active at 1. simpl. rewrite Hd. simpl.
  destruct (sys_header "stdbool.h" _) as [o1 d1]. simpl.
  destruct (sys_header "stdint.h" d1) as [o2 d2]. simpl.
  rewrite run_app, run_text by done. simpl.
  by rewrite <- !app_assoc.
Qed.

Lemma include_defined (st : state) :
  defined Source.guard (defs st) = true →
  include_file header_lines st = Some st.
Proof.
  intros Hd. apply include_settled. unfold settled. rewrite Hd.
  apply orb_true_r.
Qed.

(** X1: when the guard macro is already defined, whatever its
    replacement list, an inclusion changes nothing: no text is
    produced, no macro is defined, the system headers are not entered. *)
Theorem include_when_guard_defined (st : state) :
  defined Source.guard (defs st) = true →
  include_file header_lines st = Some st.
Proof. apply include_defined. Qed.

(** X2: in a processed group where the guard macro is not defined, an
    inclusion succeeds and does this, in this order: it defines the
    guard with an empty replacement list, enters <stdbool.h> and then
    <stdint.h>, and appends after their text the ten prototype lines,
    replaced under the macro definitions the two system headers leave.
    Those lines are the lines the declarations are parsed from. *)
Theorem first_inclusion_contributes (st : state) :
  active st = true → defined Source.guard (defs st) = false →
  let s1 := sys_header "stdbool.h" (<[Source.guard := []]> (defs st)) in
  let s2 := sys_header "stdint.h" s1.2 in
  include_file header_lines st
  = Some {| defs := s2.2; conds := conds st;
            out := out st ++ s1.1 ++ s2.1
                   ++ map (expand s2.2) prototype_lines |}
  ∧ mapM parse_prototype prototype_lines = Some declared
  ∧ length prototype_lines = 10.
Proof.
  intros Ha Hd s1 s2. split; [by apply include_first|].
  split; [apply prototype_lines_declared | by vm_compute].
Qed.

(** X3: the guard is the only macro the header defines itself.  For a
    macro of another name that the system headers leave as it is, an
    inclusion in any state succeeds and leaves the macro as it was,
    defined or not. *)
Theorem include_keeps_other_macros (m : string) (st : state) :
  m ≠ Source.guard →
  (∀ h d, (sys_header h d).2 !! m = d !! m) →
  (fun st' => defs st' !! m) <$> include_file header_lines st
  = Some (defs st !! m).
Proof.
  intros Hm Hsys.
  destruct (active st) eqn:Ha.
  - destruct (defined Source.guard (defs st)) eqn:Hd.
    + by rewrite include_defined.
    + rewrite include_first by done. simpl.
      rewrite !Hsys. by rewrite lookup_insert_ne.
  - unfold Cpp.include_file. by rewrite Ha.
Qed.

End Contribution.

Lemma include_when_guard_defined_witness :
  let st := Cpp.start {[Source.guard := [TIdent "off"]]} in
  Cpp.defined Source.guard (Cpp.defs st) = true
  ∧ Cpp.include_file Cpp.no_expand Cpp.marker_header Cpp.header_lines st
    = Some st.
Proof.
  intros st.
  assert (Cpp.defined Source.guard (Cpp.defs st) = true) as Hd
    by (vm_compute; reflexivity).
  split; [exact Hd|].
  exact (include_when_guard_defined Cpp.no_expand Cpp.marker_header st Hd).
Defined.

Lemma first_inclusion_contributes_witness :
  let st := Cpp.start ∅ in
  let s1 := Cpp.marker_header "stdbool.h" (<[Source.guard := []]> ∅) in
  let s2 := Cpp.marker_header "stdint.h" s1.2 in
  Cpp.active st = true
  ∧ Cpp.defined Source.guard (Cpp.defs st) = false
  ∧ Cpp.include_file Cpp.no_expand Cpp.marker_header Cpp.header_lines st
    = Some {| Cpp.defs := s2.2; Cpp.conds := [];
              Cpp.out := [] ++ s1.1 ++ s2.1
                         ++ map (Cpp.no_expand s2.2)
                              Contribution.prototype_lines |}
  ∧ mapM parse_prototype Contribution.prototype_lines = Some declared
  ∧ length Contribution.prototype_lines = 10.
Proof.
  intros st s1 s2.
  assert (Cpp.active st = true) as Ha by reflexivity.
  assert (Cpp.defined Source.guard (Cpp.defs st) = false) as Hd
    by (vm_compute; reflexivity).
  split; [exact Ha|]. split; [exact Hd|].
  exact (first_inclusion_contributes Cpp.no_expand Cpp.marker_header
           st Ha Hd).
Defined.

Lemma include_keeps_other_macros_witness :
  let st := Cpp.start {["LONGHORN_HOST" := [TIdent "ios"]]} in
  "LONGHORN_HOST" ≠ Source.guard
  ∧ (∀ h d, (Cpp.marker_header h d).2 !! "LONGHORN_HOST"
            = d !! "LONGHORN_HOST")
  ∧ (fun st' => Cpp.defs st' !! "LONGHORN_HOST")
      <$> Cpp.include_file Cpp.no_expand Cpp.marker_header
            Cpp.header_lines st
    = Some (Cpp.defs st !! "LONGHORN_HOST").
Proof.
  intros st.
  assert ("LONGHORN_HOST" ≠ Source.guard) as Hm by discriminate.
  assert (∀ h d, (Cpp.marker_header h d).2 !! "LONGHORN_HOST"
                 = d !! "LONGHORN_HOST") as Hsys by reflexivity.
  split; [exact Hm|]. split; [exact Hsys|].
  exact (include_keeps_other_macros Cpp.no_expand Cpp.marker_header
           "LONGHORN_HOST" st Hm Hsys).
Defined.

(** ** The guard macro after an inclusion *)

Section GuardInvariant.
Import Cpp.

Variable expand : gmap string (list token) → list token → list token.
Variable sys_header :
  string → gmap string (list token) →
  list (list token) * gmap string (list token).

Hypothesis sys_keeps_guard : ∀ h d,
  defined Source.guard d = true →
  defined Source.guard (sys_header h d).2 = true.

Local Abbreviation unit_step := (Cpp.unit_step expand sys_header).
Local Abbreviation run_unit := (Cpp.run_unit expand sys_header).

Lemma unit_step_inv (l : unit_line) (st st' : state) :
  plain l = true → unit_step st l = Some st' →
  conds st' = conds st
  ∧ (settled st = true → settled st' = true)
  ∧ (l = UInclude → settled st' = true).
Proof.
  intros Hp. destruct l as [|l]; simpl.
  - destruct (include_settles expand sys_header sys_keeps_guard st)
      as (st1 & -> & Hc & Hs).
    by intros [= <-].
  - intros Hst. split_and!; [| |done].
    2: { intros Hs.
         exact (step_plain_settled expand sys_header sys_keeps_guard
                  l st st' Hp Hs Hst). }
    by destruct (step_plain_inv expand sys_header sys_keeps_guard
                   l st st' Hp Hst).
Qed.

Lemma run_unit_inv (u : list unit_line) (st st' : state) :
  flat u = true → run_unit u st = Some st' →
  conds st' = conds st
  ∧ (settled st = true → settled st' = true)
  ∧ (UInclude ∈ u → settled st' = true).
Proof.
  revert st. induction u as [|l u IH]; intros st; simpl.
  - intros _ [= <-]. split_and!; [done | done |].
    intros Hin. by apply elem_of_nil in Hin.
  - rewrite andb_true_iff. intros [Hl Hu].
    destruct (unit_step st l) as [st1|] eqn:H1; simpl; [|done].
    intros Hr.
    destruct (unit_step_inv l st st1 Hl H1) as (Hc1 & Hs1 & Hi1).
    destruct (IH st1 Hu Hr) as (Hc & Hs & Hi).
    split_and!; [congruence | auto |].
    intros Hin. apply elem_of_cons in Hin as [<-|Hin]; auto.
Qed.

(** X4: once the header has been included the guard macro stays
    defined.  In a translation unit whose own lines open and close no
    conditional group and do not undefine the guard, and whose system
    headers leave the guard alone, the guard macro is defined at the end
    of every successful run that contains an inclusion. *)
Theorem guard_defined_after_inclusion (u : list unit_line)
    (st st' : state) :
  flat u = true → active st = true → UInclude ∈ u →
  run_unit u st = Some st' →
  defined Source.guard (defs st') = true.
Proof.
  intros Hu Ha Hin Hr.
  destruct (run_unit_inv u st st' Hu Hr) as (Hc & _ & Hs).
  specialize (Hs Hin). unfold settled, active in *.
  rewrite Hc, Ha in Hs. exact Hs.
Qed.

End GuardInvariant.

Lemma guard_defined_after_inclusion_witness :
  let u := [Cpp.ULine (Cpp.PText [TIdent "x"]); Cpp.UInclude;
            Cpp.ULine (Cpp.PDir (Define "LONGHORN_HOST" []))] in
  let st' :=
    {| Cpp.defs := <["LONGHORN_HOST" := []]> (<[Source.guard := []]> ∅);
       Cpp.conds := [];
       Cpp.out := [[TIdent "x"];
                   [TPunct "<"%char; TIdent "stdbool.h"; TPunct ">"%char];
                   [TPunct "<"%char; TIdent "stdint.h"; TPunct ">"%char]]
                  ++ Contribution.prototype_lines |} in
  (∀ h d, Cpp.defined Source.guard d = true →
          Cpp.defined Source.guard (Cpp.marker_header h d).2 = true)
  ∧ Cpp.flat u = true
  ∧ Cpp.active (Cpp.start ∅) = true
  ∧ Cpp.UInclude ∈ u
  ∧ Cpp.run_unit Cpp.no_expand Cpp.marker_header u (Cpp.start ∅) = Some st'
  ∧ Cpp.defined Source.guard (Cpp.defs st') = true.
Proof.
  intros u st'.
  assert (∀ h d, Cpp.defined Source.guard d = true →
                 Cpp.defined Source.guard (Cpp.marker_header h d).2 = true)
    as Hk by (intros h d Hd; exact Hd).
  assert (Cpp.flat u = true) as Hu by reflexivity.
  assert (Cpp.active (Cpp.start ∅) = true) as Ha by reflexivity.
  assert (Cpp.UInclude ∈ u) as Hin
    by (apply list_elem_of_further, list_elem_of_here).
  assert (Cpp.run_unit Cpp.no_expand Cpp.marker_header u (Cpp.start ∅)
          = Some st') as Hr by (vm_compute; reflexivity).
  split_and!; [exact Hk | exact Hu | exact Ha | exact Hin | exact Hr |].
  exact (guard_defined_after_inclusion Cpp.no_expand Cpp.marker_header Hk
           u (Cpp.start ∅) st' Hu Ha Hin Hr).
Defined.
